(** * Differentially private covariance: engine, accountant, session and
    the post-processing of the covariance notebook.

    The notebook [src/analysis/covariance.ipynb] drives a covariance engine
    through [wn.Analysis], [wn.dp_covariance] and [analysis.release()]; the
    engine itself (sensitivity, noise, matrix assembly, privacy accounting,
    session state machine) is not part of the sources and is modelled from
    the spec.  Real-valued statistics and budgets of the engine are modelled
    with exact rationals [Q]; randomness is an explicit source of standard
    Laplace draws.  The notebook's own post-processing ([dp_corr],
    [beta_hat_dp]) works on numpy float64 arrays and is modelled with the
    kernel's primitive binary64 floats. *)

From Stdlib Require Import String List Bool Arith Lia ZArith QArith.
From Stdlib Require Import Floats.
Import ListNotations.

(** ** Results and errors *)

Inductive error :=
| InvalidBounds
| NonPositiveN
| NonPositiveEpsilon
| DimensionMismatch
| ConfigurationError
| BudgetExceeded
| SessionAlreadyReleased
| DoubleReleaseError.

Inductive result (A : Type) :=
| Ok (a : A)
| Err (e : error).
Arguments Ok {A} a.
Arguments Err {A} e.

Definition bind {A B} (r : result A) (k : A -> result B) : result B :=
  match r with
  | Ok a => k a
  | Err e => Err e
  end.

Notation "x <- r ;; k" := (bind r (fun x => k))
  (at level 61, r at next level, right associativity).

Fixpoint mapM {A B} (f : A -> result B) (l : list A) : result (list B) :=
  match l with
  | [] => Ok []
  | a :: l' => b <- f a ;; bs <- mapM f l' ;; Ok (b :: bs)
  end.

(** ** Exact arithmetic of the engine *)

Module Engine.
Local Open Scope Q_scope.

Definition Q_of_nat (n : nat) : Q := inject_Z (Z.of_nat n).

Definition sum_Q (l : list Q) : Q := fold_right Qplus 0 l.

(** Modelled from the spec (the covariance engine behind [wn.dp_covariance], not in the sources):
    SensitivityCalculator (spec 4.1), sensitivity of one covariance cell
    under substitution of one row, for a fixed row count [n]. *)
Definition sensitivity (lo_i hi_i lo_j hi_j : Q) (n : nat) : result Q :=
  if Qle_bool hi_i lo_i || Qle_bool hi_j lo_j then Err InvalidBounds
  else if (n <=? 1)%nat then Err NonPositiveN
  else Ok ((hi_i - lo_i) * (hi_j - lo_j) / (Q_of_nat n - 1)).


(** Modelled from the spec (the covariance engine behind [wn.dp_covariance], not in the sources):
    BoundedColumn (spec 3), a column as resolved at evaluation time, with
    its declared bounds, its declared row count and the values read from
    the dataset. *)
Record BoundedColumn := {
  bc_lower : Q;
  bc_upper : Q;
  bc_count : nat;
  bc_values : list Q
}.

(** Datasets are read by column name. *)
Definition Dataset := list (string * list Q).

Fixpoint lookup (ds : Dataset) (name : string) : option (list Q) :=
  match ds with
  | [] => None
  | (k, v) :: ds' => if String.eqb k name then Some v else lookup ds' name
  end.

(** Modelled from the spec (the covariance engine behind [wn.dp_covariance], not in the sources):
    resolving a declared column against the dataset: a missing column is a
    configuration error, a column whose length differs from the declared
    count a dimension mismatch. *)
Definition resolve (ds : Dataset) (name : string) (lo hi : Q) (n : nat)
  : result BoundedColumn :=
  match lookup ds name with
  | None => Err ConfigurationError
  | Some vs =>
      if (length vs =? n)%nat
      then Ok {| bc_lower := lo; bc_upper := hi; bc_count := n; bc_values := vs |}
      else Err DimensionMismatch
  end.

Fixpoint resolve_all (ds : Dataset) (names : list string) (los his : list Q)
  (n : nat) : result (list BoundedColumn) :=
  match names, los, his with
  | [], [], [] => Ok []
  | nm :: names', lo :: los', hi :: his' =>
      c <- resolve ds nm lo hi n ;; cs <- resolve_all ds names' los' his' n ;;
      Ok (c :: cs)
  | _, _, _ => Err DimensionMismatch
  end.

(** Modelled from the spec (the covariance engine behind [wn.dp_covariance], not in the sources):
    clamping into the declared bounds, applied before any aggregate. *)
Definition clamp (lo hi x : Q) : Q :=
  if Qle_bool lo x then (if Qle_bool x hi then x else hi) else lo.

Definition clamped (c : BoundedColumn) : list Q :=
  map (clamp (bc_lower c) (bc_upper c)) (bc_values c).

Definition mean (xs : list Q) : Q := sum_Q xs / Q_of_nat (length xs).

Fixpoint zip_with {A B C} (f : A -> B -> C) (xs : list A) (ys : list B) : list C :=
  match xs, ys with
  | x :: xs', y :: ys' => f x y :: zip_with f xs' ys'
  | _, _ => []
  end.

(** Modelled from the spec (the covariance engine behind [wn.dp_covariance], not in the sources):
    sample covariance of two clamped columns of [n] rows. *)
Definition cov (n : nat) (xs ys : list Q) : Q :=
  let mx := mean xs in
  let my := mean ys in
  sum_Q (zip_with (fun x y => (x - mx) * (y - my)) xs ys) / (Q_of_nat n - 1).

Definition cov_cols (n : nat) (a b : BoundedColumn) : Q :=
  cov n (clamped a) (clamped b).

Definition cell_sensitivity (n : nat) (a b : BoundedColumn) : result Q :=
  sensitivity (bc_lower a) (bc_upper a) (bc_lower b) (bc_upper b) n.

(** Modelled from the spec (the covariance engine behind [wn.dp_covariance], not in the sources):
    NoiseMechanism (spec 4.2); the random source is explicit; it yields
    independent standard Laplace draws, and a Laplace draw of scale [b] is
    [b] times a standard one. *)
Definition Source := nat -> Q.

Definition draw (z : Source) (k : nat) (sens eps_cell : Q) : Q :=
  sens / eps_cell * z k.

Inductive Mode := Scalar | Matrix | Cross.

(** Modelled from the spec (the covariance engine behind [wn.dp_covariance], not in the sources):
    Release (spec 3). *)
Record Release := {
  values : list (list Q);
  epsilon_spent : Q;
  mode : Mode
}.

Definition mget (m : list (list Q)) (i j : nat) : Q := nth j (nth i m []) 0.

(** Modelled from the spec (the covariance engine behind [wn.dp_covariance], not in the sources):
    even split of [eps] over [ncells] cells: the per-cell allocations. *)
Definition allocations (eps : Q) (ncells : nat) : list Q :=
  repeat (eps / Q_of_nat ncells) ncells.

Definition col (cs : list BoundedColumn) (i : nat) : BoundedColumn :=
  nth i cs {| bc_lower := 0; bc_upper := 0; bc_count := 0; bc_values := [] |}.

(** Modelled from the spec (the covariance engine behind [wn.dp_covariance], not in the sources):
    computeScalar (spec 4.3). *)
Definition computeScalar (ds : Dataset) (left right : string)
  (left_lower left_upper : Q) (left_n : nat)
  (right_lower right_upper : Q) (right_n : nat) (eps : Q) (z : Source)
  : result Release :=
  l <- resolve ds left left_lower left_upper left_n ;;
  r <- resolve ds right right_lower right_upper right_n ;;
  if negb (left_n =? right_n)%nat then Err DimensionMismatch else
  d <- cell_sensitivity left_n l r ;;
  let al := allocations eps 1 in
  Ok {| values := [[cov_cols left_n l r + draw z 0 d (nth 0 al 0)]];
        epsilon_spent := sum_Q al;
        mode := Scalar |}.

(** The unique unordered cells [(i, j)], [i <= j], of a [K x K] matrix,
    column by column; cell [(i, j)] sits at index [tri_index i j]. *)
Definition matrix_cells (K : nat) : list (nat * nat) :=
  flat_map (fun j => map (fun i => (i, j)) (seq 0 (S j))) (seq 0 K).

Definition tri_index (i j : nat) : nat := (j * S j / 2 + i)%nat.

(** The ordered cells of an [L x R] matrix, row by row; cell [(i, j)] sits
    at index [i * R + j]. *)
Definition cross_cells (L R : nat) : list (nat * nat) :=
  flat_map (fun i => map (fun j => (i, j)) (seq 0 R)) (seq 0 L).

(** Modelled from the spec (the covariance engine behind [wn.dp_covariance], not in the sources):
    computeMatrix (spec 4.3), one noise draw per unique cell, mirrored. *)
Definition computeMatrix (ds : Dataset) (names : list string)
  (data_lower data_upper : list Q) (data_n : nat) (eps : Q) (z : Source)
  : result Release :=
  match names with
  | [] => Err ConfigurationError
  | _ =>
    cs <- resolve_all ds names data_lower data_upper data_n ;;
    let K := length cs in
    let cells := matrix_cells K in
    let al := allocations eps (length cells) in
    sens <- mapM (fun '(i, j) => cell_sensitivity data_n (col cs i) (col cs j)) cells ;;
    let noise k := draw z k (nth k sens 0) (nth k al 0) in
    Ok {| values :=
            map (fun i => map (fun j =>
                   cov_cols data_n (col cs i) (col cs j)
                   + noise (tri_index (Nat.min i j) (Nat.max i j)))
                 (seq 0 K)) (seq 0 K);
          epsilon_spent := sum_Q al;
          mode := Matrix |}
  end.

(** Modelled from the spec (the covariance engine behind [wn.dp_covariance], not in the sources):
    computeCross (spec 4.3), one noise draw per ordered cell. *)
Definition computeCross (ds : Dataset) (left right : list string)
  (left_lower left_upper : list Q) (left_n : nat)
  (right_lower right_upper : list Q) (right_n : nat) (eps : Q) (z : Source)
  : result Release :=
  match left, right with
  | [], _ | _, [] => Err ConfigurationError
  | _, _ =>
    if negb (left_n =? right_n)%nat then Err DimensionMismatch else
    ls <- resolve_all ds left left_lower left_upper left_n ;;
    rs <- resolve_all ds right right_lower right_upper right_n ;;
    let L := length ls in
    let R := length rs in
    let cells := cross_cells L R in
    let al := allocations eps (length cells) in
    sens <- mapM (fun '(i, j) => cell_sensitivity left_n (col ls i) (col rs j)) cells ;;
    let noise k := draw z k (nth k sens 0) (nth k al 0) in
    Ok {| values :=
            map (fun i => map (fun j =>
                   cov_cols left_n (col ls i) (col rs j) + noise (i * R + j)%nat)
                 (seq 0 R)) (seq 0 L);
          epsilon_spent := sum_Q al;
          mode := Cross |}
  end.

End Engine.

(** ** Privacy accounting and the analysis session *)

Module Session.
Import Engine.
Local Open Scope Q_scope.

(** Modelled from the spec (the accountant and session behind [wn.Analysis] and [analysis.release()], not in the sources):
    CovarianceRequest (spec 3), with the arguments the notebook passes to
    [wn.dp_covariance] in each mode. *)
Inductive Request :=
| ScalarReq (left right : string) (left_lower left_upper : Q) (left_n : nat)
    (right_lower right_upper : Q) (right_n : nat) (eps : Q)
| MatrixReq (names : list string) (data_lower data_upper : list Q)
    (data_n : nat) (eps : Q)
| CrossReq (left right : list string) (left_lower left_upper : list Q)
    (left_n : nat) (right_lower right_upper : list Q) (right_n : nat) (eps : Q).

Definition request_epsilon (r : Request) : Q :=
  match r with
  | ScalarReq _ _ _ _ _ _ _ _ eps
  | MatrixReq _ _ _ _ eps
  | CrossReq _ _ _ _ _ _ _ _ eps => eps
  end.

(** Modelled from the spec (the accountant and session behind [wn.Analysis] and [analysis.release()], not in the sources):
    plan-time check of one column set: columns present, one bound per
    column, bounds and row count accepted by the sensitivity calculator. *)
Fixpoint check_bounds (los his : list Q) (n : nat) : result unit :=
  match los, his with
  | [], [] => Ok tt
  | lo :: los', hi :: his' =>
      _ <- sensitivity lo hi lo hi n ;; check_bounds los' his' n
  | _, _ => Err DimensionMismatch
  end.

Definition check_columns (names : list string) (los his : list Q) (n : nat)
  : result unit :=
  match names with
  | [] => Err ConfigurationError
  | _ =>
      if (length los =? length names)%nat && (length his =? length names)%nat
      then check_bounds los his n
      else Err DimensionMismatch
  end.

(** Modelled from the spec (the accountant and session behind [wn.Analysis] and [analysis.release()], not in the sources):
    validation done by [addNode] before any budget is committed. *)
Definition validate (r : Request) : result unit :=
  if Qle_bool (request_epsilon r) 0 then Err NonPositiveEpsilon else
  match r with
  | ScalarReq _ _ llo lhi ln rlo rhi rn _ =>
      if negb (ln =? rn)%nat then Err DimensionMismatch else
      _ <- sensitivity llo lhi rlo rhi ln ;; Ok tt
  | MatrixReq names lo hi n _ => check_columns names lo hi n
  | CrossReq lnames rnames llo lhi ln rlo rhi rn _ =>
      if negb (ln =? rn)%nat then Err DimensionMismatch else
      _ <- check_columns lnames llo lhi ln ;; check_columns rnames rlo rhi rn
  end.

(** Modelled from the spec (the accountant and session behind [wn.Analysis] and [analysis.release()], not in the sources):
    PrivacyAccountant (spec 4.4). *)
Record Accountant := {
  acc_nodes : list Request;
  cumulative_epsilon : Q;
  global_cap : option Q
}.

Definition new_accountant (cap : option Q) : Accountant :=
  {| acc_nodes := []; cumulative_epsilon := 0; global_cap := cap |}.

Definition totalSpent (a : Accountant) : Q := cumulative_epsilon a.

(** Modelled from the spec (the accountant and session behind [wn.Analysis] and [analysis.release()], not in the sources):
    [addNode] returns the handle of the new node (its position) and the
    accountant after the call; a failed call returns it unchanged. *)
Definition addNode (r : Request) (a : Accountant) : result nat * Accountant :=
  match validate r with
  | Err e => (Err e, a)
  | Ok _ =>
      let total := cumulative_epsilon a + request_epsilon r in
      let added := (Ok (length (acc_nodes a)),
                    {| acc_nodes := acc_nodes a ++ [r];
                       cumulative_epsilon := total;
                       global_cap := global_cap a |}) in
      match global_cap a with
      | Some cap => if Qle_bool total cap then added else (Err BudgetExceeded, a)
      | None => added
      end
  end.

(** Modelled from the spec (the accountant and session behind [wn.Analysis] and [analysis.release()], not in the sources):
    AnalysisSession (spec 4.5). *)
Inductive SState := Building | Released.

Record AnalysisSession := {
  accountant : Accountant;
  state : SState;
  releases : list Release
}.

Definition new_session (cap : option Q) : AnalysisSession :=
  {| accountant := new_accountant cap; state := Building; releases := [] |}.

Definition addRequest (r : Request) (s : AnalysisSession)
  : result nat * AnalysisSession :=
  match state s with
  | Released => (Err SessionAlreadyReleased, s)
  | Building =>
      let '(res, a') := addNode r (accountant s) in
      (res, {| accountant := a'; state := Building; releases := releases s |})
  end.

(** Modelled from the spec (the accountant and session behind [wn.Analysis] and [analysis.release()], not in the sources):
    evaluation of node [k]; node [k] reads its own substream [z k] of the
    random source. *)
Definition eval_node (ds : Dataset) (z : nat -> Source) (k : nat) (r : Request)
  : result Release :=
  match r with
  | ScalarReq l rr llo lhi ln rlo rhi rn eps =>
      computeScalar ds l rr llo lhi ln rlo rhi rn eps (z k)
  | MatrixReq names lo hi n eps => computeMatrix ds names lo hi n eps (z k)
  | CrossReq l rr llo lhi ln rlo rhi rn eps =>
      computeCross ds l rr llo lhi ln rlo rhi rn eps (z k)
  end.

Fixpoint mapMi {A B} (f : nat -> A -> result B) (k : nat) (l : list A)
  : result (list B) :=
  match l with
  | [] => Ok []
  | a :: l' => b <- f k a ;; bs <- mapMi f (S k) l' ;; Ok (b :: bs)
  end.

(** Modelled from the spec (the accountant and session behind [wn.Analysis] and [analysis.release()], not in the sources):
    [release], every pending node is evaluated; the session commits only
    when all of them succeed. *)
Definition release (ds : Dataset) (z : nat -> Source) (s : AnalysisSession)
  : result (list Release) * AnalysisSession :=
  match state s with
  | Released => (Err DoubleReleaseError, s)
  | Building =>
      match mapMi (eval_node ds z) 0 (acc_nodes (accountant s)) with
      | Err e => (Err e, s)
      | Ok rels =>
          (Ok rels, {| accountant := accountant s; state := Released;
                       releases := rels |})
      end
  end.

End Session.

(** ** Post-processing in the notebook (numpy float64) *)

Module PostProcessing.
Local Open Scope float_scope.

(** A numpy float64 matrix, row by row. *)
Definition fmatrix := list (list float).

Definition fget (m : fmatrix) (i j : nat) : float := nth j (nth i m []) 0.

(** [np.diag] of a square matrix. *)
Definition diag (m : fmatrix) : list float :=
  map (fun k => fget m k k) (seq 0 (length m)).

(** [np.outer]. *)
Definition outer (a b : list float) : fmatrix :=
  map (fun x => map (fun y => x * y) b) a.

(** Elementwise [/] of two matrices of the same shape. *)
Definition ediv (m o : fmatrix) : fmatrix :=
  Engine.zip_with (Engine.zip_with (fun x y => x / y)) m o.

(** [dp_corr = dp_cov / np.outer(np.sqrt(np.diag(dp_cov)),
                                  np.sqrt(np.diag(dp_cov)))] *)
Definition dp_corr (dp_cov : fmatrix) : fmatrix :=
  ediv dp_cov (outer (map PrimFloat.sqrt (diag dp_cov))
                     (map PrimFloat.sqrt (diag dp_cov))).

(** numpy indexing [m[i, j]]; [None] is an [IndexError]. *)
Definition at2 (m : fmatrix) (i j : nat) : option float :=
  match nth_error m i with
  | Some row => nth_error row j
  | None => None
  end.

(** [beta_hat_dp = dp_cov[2,3] / dp_cov[2,2]] *)
Definition beta_hat_dp (dp_cov : fmatrix) : option float :=
  match at2 dp_cov 2 3, at2 dp_cov 2 2 with
  | Some c, Some v => Some (c / v)
  | _, _ => None
  end.

(** The notebook's state after [analysis.release()]: the session, the raw
    data it was read from, and the released matrix [dp_cov = cov.value]. *)
Record Notebook := {
  nb_session : Session.AnalysisSession;
  nb_data : Engine.Dataset;
  nb_dp_cov : fmatrix
}.

(** The post-processing cells: they read [dp_cov] and produce the
    correlation matrix and the regression coefficient; the notebook state
    they run in is passed through. *)
Definition post_process (nb : Notebook) : Notebook * (fmatrix * option float) :=
  (nb, (dp_corr (nb_dp_cov nb), beta_hat_dp (nb_dp_cov nb))).

End PostProcessing.

(** ** The heatmap mask of the plotting cell *)

Module Plotting.
Import PostProcessing.

(** [np.ones_like(a, dtype = np.bool)]: [True] in the shape of [a]. *)
Definition ones_like (a : fmatrix) : list (list bool) :=
  map (fun row => map (fun _ => true) row) a.

(** [np.triu(b)]: entry [(i, j)] is kept where [j >= i] and zeroed
    ([False]) below the diagonal. *)
Definition triu (b : list (list bool)) : list (list bool) :=
  map (fun '(i, row) =>
         map (fun '(j, x) => if (i <=? j)%nat then x else false)
             (combine (seq 0 (length row)) row))
      (combine (seq 0 (length b)) b).

(** [mask = np.triu(np.ones_like(non_dp_corr, dtype = np.bool))]; the
    heatmaps of [non_dp_corr] and of [dp_corr] hide the cells where the mask
    is [True]. *)
Definition mask (non_dp_corr : fmatrix) : list (list bool) :=
  triu (ones_like non_dp_corr).

Definition bget (b : list (list bool)) (i j : nat) : bool :=
  nth j (nth i b []) false.

End Plotting.

(** ** Concrete inputs used by the examples below *)

Module Demo.
Import Engine Session PostProcessing.

Definition demo_ds : Dataset :=
  [("age"%string, [20; 30; 40; 50]%Q); ("income"%string, [1; 5; 3; 9]%Q)].

Definition demo_names : list string := ["age"; "income"]%string.
Definition demo_lower : list Q := [0; 0]%Q.
Definition demo_upper : list Q := [100; 10]%Q.

(** A fixed stream of standard Laplace draws, for reproducible examples. *)
Definition demo_z : Source := fun k => Q_of_nat k.
Definition demo_zs : nat -> Source := fun _ => demo_z.

Definition demo_matrix_req : Request :=
  MatrixReq demo_names demo_lower demo_upper 4 2.

(** A request whose column ["educ"] is absent from [demo_ds]: it passes
    plan-time validation and fails at release time. *)
Definition demo_missing_req : Request :=
  MatrixReq ["educ"%string] [1%Q] [16%Q] 4 1.

Definition demo_ok_session : AnalysisSession :=
  snd (addRequest demo_matrix_req (new_session (Some 10%Q))).

Definition demo_failing_session : AnalysisSession :=
  snd (addRequest demo_missing_req demo_ok_session).

Definition demo_first_release : result (list Release) * AnalysisSession :=
  release demo_ds demo_zs demo_ok_session.

Definition demo_first_rels : list Release :=
  match fst demo_first_release with Ok rs => rs | Err _ => [] end.

(** A released covariance matrix with a negative variance at index 2. *)
Definition demo_cov : fmatrix :=
  [[4; 1; 2; 3]; [1; 9; 0.5; 1]; [2; 0.5; -1; 7]; [3; 1; 7; 16]]%float.

Definition demo_nb1 : Notebook :=
  {| nb_session := demo_ok_session; nb_data := demo_ds; nb_dp_cov := demo_cov |}.

Definition demo_nb2 : Notebook :=
  {| nb_session := new_session None; nb_data := []; nb_dp_cov := demo_cov |}.

End Demo.

Module DemoFloat.
Import PostProcessing.

(** A released matrix with a zero variance on its diagonal. *)
Definition demo_zero_var : fmatrix := [[0; 1]; [1; 4]]%float.

End DemoFloat.

(** ** Theorems *)

Module EngineFacts.
Import Engine.
Local Open Scope Q_scope.

Lemma Qmult_comm_eq (a b : Q) : a * b = b * a.
Proof.
  destruct a as [an ad], b as [bn bd]. unfold Qmult. simpl.
  rewrite Z.mul_comm, Pos.mul_comm. reflexivity.
Qed.

Lemma zip_with_swap {A B C} (f : A -> B -> C) (g : B -> A -> C) xs ys :
  (forall x y, f x y = g y x) -> zip_with f xs ys = zip_with g ys xs.
Proof.
  intros Hfg. revert ys.
  induction xs as [|x xs IH]; intros [|y ys]; simpl; try reflexivity.
  rewrite IH, Hfg. reflexivity.
Qed.

Lemma cov_sym n xs ys : cov n xs ys = cov n ys xs.
Proof.
  unfold cov. f_equal. f_equal.
  apply zip_with_swap. intros. apply Qmult_comm_eq.
Qed.

Lemma cov_cols_sym n a b : cov_cols n a b = cov_cols n b a.
Proof. apply cov_sym. Qed.

Lemma nth_map_seq {A} (f : nat -> A) K i d :
  nth i (map f (seq 0 K)) d = if (i <? K)%nat then f i else d.
Proof.
  destruct (Nat.ltb_spec i K).
  - rewrite nth_indep with (d' := f 0%nat) by (rewrite length_map, length_seq; lia).
    rewrite map_nth, seq_nth by lia. reflexivity.
  - apply nth_overflow. rewrite length_map, length_seq. lia.
Qed.

Lemma mget_square (g : nat -> nat -> Q) K i j :
  mget (map (fun i => map (fun j => g i j) (seq 0 K)) (seq 0 K)) i j
  = if (i <? K)%nat && (j <? K)%nat then g i j else 0.
Proof.
  unfold mget. rewrite nth_map_seq.
  destruct (i <? K)%nat; simpl.
  - rewrite nth_map_seq. reflexivity.
  - destruct j; reflexivity.
Qed.

Lemma resolve_all_length ds names los his n cs :
  resolve_all ds names los his n = Ok cs -> length cs = length names.
Proof.
  revert los his cs.
  induction names as [|nm names IH]; intros [|lo los] [|hi his] cs H;
    simpl in H; try discriminate.
  - injection H as <-. reflexivity.
  - destruct (resolve ds nm lo hi n) as [c|e]; simpl in H; [|discriminate].
    destruct (resolve_all ds names los his n) as [cs'|e] eqn:E; simpl in H;
      [|discriminate].
    injection H as <-. simpl. f_equal. eapply IH. exact E.
Qed.

Lemma matrix_cells_length2 K : (length (matrix_cells K) * 2 = K * S K)%nat.
Proof.
  induction K as [|K IH]; [reflexivity|].
  unfold matrix_cells in *. rewrite seq_S, flat_map_app, length_app.
  cbn [flat_map]. rewrite app_nil_r, length_map, length_seq. lia.
Qed.

Lemma matrix_cells_length K : length (matrix_cells K) = (K * (K + 1) / 2)%nat.
Proof.
  rewrite Nat.add_1_r, <- matrix_cells_length2, Nat.div_mul by lia. reflexivity.
Qed.

Lemma cross_cells_length L R : length (cross_cells L R) = (L * R)%nat.
Proof.
  induction L as [|L IH]; [reflexivity|].
  unfold cross_cells in *. rewrite seq_S, flat_map_app, length_app.
  cbn [flat_map]. rewrite app_nil_r, length_map, length_seq, IH. lia.
Qed.

Lemma sum_repeat q m : sum_Q (repeat q m) == Q_of_nat m * q.
Proof.
  induction m as [|m IH]; simpl.
  - unfold Q_of_nat. simpl. ring.
  - rewrite IH. unfold Q_of_nat. rewrite Nat2Z.inj_succ, <- Z.add_1_r, inject_Z_plus.
    simpl. ring.
Qed.

Lemma sum_allocations eps m : (0 < m)%nat -> sum_Q (allocations eps m) == eps.
Proof.
  intros Hm. unfold allocations. rewrite sum_repeat.
  assert (Hnz : ~ Q_of_nat m == 0).
  { unfold Q_of_nat. rewrite inject_Z_injective with (a := Z.of_nat m) (b := 0%Z).
    lia. }
  field. exact Hnz.
Qed.

Lemma mget_rect (g : nat -> nat -> Q) L R i j :
  mget (map (fun i => map (fun j => g i j) (seq 0 R)) (seq 0 L)) i j
  = if (i <? L)%nat && (j <? R)%nat then g i j else 0.
Proof.
  unfold mget. rewrite nth_map_seq.
  destruct (i <? L)%nat; simpl.
  - rewrite nth_map_seq. reflexivity.
  - destruct j; reflexivity.
Qed.

Lemma mapM_Forall2 {A B} (f : A -> result B) l r :
  mapM f l = Ok r -> Forall2 (fun a b => f a = Ok b) l r.
Proof.
  revert r. induction l as [|a l IH]; intros r H; simpl in H.
  - injection H as <-. constructor.
  - destruct (f a) as [b|e] eqn:Ef; simpl in H; [|discriminate].
    destruct (mapM f l) as [bs|e] eqn:El; simpl in H; [|discriminate].
    injection H as <-. constructor; [exact Ef|]. apply IH. reflexivity.
Qed.

Lemma Forall2_nth {A B} (P : A -> B -> Prop) l r k da db :
  Forall2 P l r -> (k < length l)%nat -> P (nth k l da) (nth k r db).
Proof.
  intros HF. revert k. induction HF as [|a b l r Hab HF IH]; intros k Hk.
  - simpl in Hk. lia.
  - destruct k; simpl; [exact Hab|]. apply IH. simpl in Hk. lia.
Qed.

Lemma Qle_bool_false a b : Qle_bool a b = false -> b < a.
Proof.
  intros H. apply Qnot_le_lt. intros Hle. apply Qle_bool_iff in Hle.
  rewrite Hle in H. discriminate.
Qed.

Lemma sensitivity_pos lo_i hi_i lo_j hi_j n d :
  sensitivity lo_i hi_i lo_j hi_j n = Ok d -> 0 < d.
Proof.
  unfold sensitivity. intros H.
  destruct (Qle_bool hi_i lo_i) eqn:Ei; [discriminate|].
  destruct (Qle_bool hi_j lo_j) eqn:Ej; [discriminate|].
  simpl in H. destruct (Nat.leb_spec n 1) as [Hn|Hn]; [discriminate|].
  injection H as <-.
  apply Qle_bool_false in Ei. apply Qle_bool_false in Ej.
  assert (Hn' : 1 < Q_of_nat n).
  { unfold Q_of_nat. change 1 with (inject_Z 1). rewrite <- Zlt_Qlt. lia. }
  apply Qlt_minus_iff in Ei, Ej, Hn'.
  unfold Qdiv, Qminus.
  apply Qmult_lt_0_compat; [apply Qmult_lt_0_compat; assumption|].
  apply Qinv_lt_0_compat. exact Hn'.
Qed.

Lemma cross_cells_nth1 L R d :
  (1 <= L)%nat -> (2 <= R)%nat -> nth 1 (cross_cells L R) d = (0%nat, 1%nat).
Proof.
  intros HL HR. destruct L as [|L]; [lia|].
  destruct R as [|[|R]]; [lia|lia|]. reflexivity.
Qed.

Lemma nth_repeat_lt {A} (a d : A) m k : (k < m)%nat -> nth k (repeat a m) d = a.
Proof.
  revert k. induction m as [|m IH]; intros k Hk; [lia|].
  destruct k; simpl; [reflexivity|]. apply IH. lia.
Qed.

Lemma Q_of_nat_pos m : (0 < m)%nat -> 0 < Q_of_nat m.
Proof.
  intros Hm. unfold Q_of_nat. change 0 with (inject_Z 0). rewrite <- Zlt_Qlt. lia.
Qed.

Lemma Qdiv_pos a b : 0 < a -> 0 < b -> 0 < a / b.
Proof.
  intros Ha Hb. unfold Qdiv. apply Qmult_lt_0_compat; [exact Ha|].
  apply Qinv_lt_0_compat. exact Hb.
Qed.

(** Claim C2: for valid bounds and [n > 1] the sensitivity is
    [(hi_i - lo_i) * (hi_j - lo_j) / (n - 1)], on the diagonal
    [(hi - lo)^2 / (n - 1)]; it fails with [InvalidBounds] when an upper
    bound is not above its lower bound, and with [NonPositiveN] when the
    bounds are valid and [n <= 1]. *)
Theorem sensitivity_contract :
  forall lo_i hi_i lo_j hi_j n,
    (lo_i < hi_i -> lo_j < hi_j -> (1 < n)%nat ->
       sensitivity lo_i hi_i lo_j hi_j n
       = Ok ((hi_i - lo_i) * (hi_j - lo_j) / (Q_of_nat n - 1))
     /\ sensitivity lo_i hi_i lo_i hi_i n
       = Ok ((hi_i - lo_i) ^ 2 / (Q_of_nat n - 1)))
    /\ (hi_i <= lo_i \/ hi_j <= lo_j ->
        sensitivity lo_i hi_i lo_j hi_j n = Err InvalidBounds)
    /\ (lo_i < hi_i -> lo_j < hi_j -> (n <= 1)%nat ->
        sensitivity lo_i hi_i lo_j hi_j n = Err NonPositiveN).
Proof.
  intros lo_i hi_i lo_j hi_j n.
  assert (Hlt : forall a b, a < b -> Qle_bool b a = false).
  { intros a b H. destruct (Qle_bool b a) eqn:E; [|reflexivity].
    apply Qle_bool_iff in E. exfalso. apply (Qlt_not_le a b); assumption. }
  unfold sensitivity. split; [|split].
  - intros Hi Hj Hn. rewrite (Hlt _ _ Hi), (Hlt _ _ Hj). simpl.
    destruct (Nat.leb_spec n 1); [lia|]. split; [reflexivity|].
    reflexivity.
  - intros [H|H]; apply Qle_bool_iff in H; rewrite H; [reflexivity|].
    destruct (Qle_bool hi_i lo_i); reflexivity.
  - intros Hi Hj Hn. rewrite (Hlt _ _ Hi), (Hlt _ _ Hj). simpl.
    destruct (Nat.leb_spec n 1); [reflexivity|lia].
Qed.

(** Claim C1: every matrix released by [computeMatrix] is exactly
    symmetric, whatever the data, the bounds and the noise draws: the noise
    of the unique cell [(min i j, max i j)] is mirrored into [(i, j)] and
    [(j, i)], and the covariance of two columns does not depend on their
    order. *)
Theorem computeMatrix_symmetric :
  forall ds names data_lower data_upper data_n eps z r,
    computeMatrix ds names data_lower data_upper data_n eps z = Ok r ->
    forall i j, mget (values r) i j = mget (values r) j i.
Proof.
  intros ds names lo hi n eps z r H i j.
  destruct names as [|nm names]; [discriminate|].
  unfold computeMatrix in H.
  destruct (resolve_all ds (nm :: names) lo hi n) as [cs|e]; [|discriminate].
  simpl in H.
  match type of H with
  | context [mapM ?f ?l] => destruct (mapM f l) as [sens|e]; [|discriminate]
  end.
  simpl in H. injection H as <-. simpl.
  rewrite !mget_square.
  destruct (i <? length cs)%nat, (j <? length cs)%nat; simpl; try reflexivity.
  rewrite cov_cols_sym, Nat.min_comm, Nat.max_comm. reflexivity.
Qed.

(** Claim C3: a [Matrix] release over [K] columns splits [eps] evenly
    over the [K (K + 1) / 2] unique cells, a [Cross] release over [L x R]
    columns over the [L * R] ordered cells; the per-cell allocations sum to
    [eps] exactly, and so does the release's [epsilon_spent]. *)
Theorem release_budget_split :
  (forall ds names data_lower data_upper data_n eps z r,
     computeMatrix ds names data_lower data_upper data_n eps z = Ok r ->
     let K := length names in
     let al := allocations eps (length (matrix_cells K)) in
     al = repeat (eps / Q_of_nat (K * (K + 1) / 2)%nat) (K * (K + 1) / 2)%nat
     /\ sum_Q al == eps
     /\ epsilon_spent r = sum_Q al
     /\ epsilon_spent r == eps)
  /\
  (forall ds left right left_lower left_upper left_n
          right_lower right_upper right_n eps z r,
     computeCross ds left right left_lower left_upper left_n
       right_lower right_upper right_n eps z = Ok r ->
     let L := length left in
     let R := length right in
     let al := allocations eps (length (cross_cells L R)) in
     al = repeat (eps / Q_of_nat (L * R)%nat) (L * R)%nat
     /\ sum_Q al == eps
     /\ epsilon_spent r = sum_Q al
     /\ epsilon_spent r == eps).
Proof.
  split.
  - intros ds names lo hi n eps z r H K al.
    destruct names as [|nm names']; [discriminate|].
    unfold computeMatrix in H.
    destruct (resolve_all ds (nm :: names') lo hi n) as [cs|e] eqn:Ecs;
      [|discriminate].
    apply resolve_all_length in Ecs.
    simpl in H.
    match type of H with
    | context [mapM ?f ?l] => destruct (mapM f l) as [sens|e]; [|discriminate]
    end.
    simpl in H. injection H as <-. simpl. rewrite Ecs.
    assert (Hpos : (0 < length (matrix_cells K))%nat).
    { rewrite matrix_cells_length. apply Nat.div_str_pos.
      subst K. simpl. lia. }
    fold K. fold al.
    assert (Hsum : sum_Q al == eps) by (apply sum_allocations; exact Hpos).
    repeat split; try exact Hsum.
    subst al. unfold allocations. rewrite matrix_cells_length. reflexivity.
  - intros ds left right llo lhi ln rlo rhi rn eps z r H L R al.
    destruct left as [|l left']; [discriminate|].
    destruct right as [|rr right']; [discriminate|].
    unfold computeCross in H. cbv beta iota in H.
    destruct (negb (ln =? rn)%nat); [discriminate|].
    destruct (resolve_all ds (l :: left') llo lhi ln) as [ls|e] eqn:Els;
      [|discriminate].
    cbn [bind] in H.
    destruct (resolve_all ds (rr :: right') rlo rhi rn) as [rs|e] eqn:Ers;
      [|discriminate].
    apply resolve_all_length in Els. apply resolve_all_length in Ers.
    cbn [bind] in H.
    match type of H with
    | context [mapM ?f ?l] => destruct (mapM f l) as [sens|e]; [|discriminate]
    end.
    cbn [bind] in H. injection H as <-. simpl. rewrite Els, Ers.
    assert (Hpos : (0 < length (cross_cells L R))%nat).
    { rewrite cross_cells_length. subst L R. simpl. lia. }
    fold L R. fold al.
    assert (Hsum : sum_Q al == eps) by (apply sum_allocations; exact Hpos).
    repeat split; try exact Hsum.
    subst al. unfold allocations. rewrite cross_cells_length. reflexivity.
Qed.

(** Claim C4: [computeCross] draws the noise of every ordered cell
    independently, so even with the same column set on both sides (two or
    more columns) the release is not guaranteed symmetric: whenever such a
    cross release succeeds, some noise draws make cell [(0, 1)] differ
    from cell [(1, 0)]. *)
Theorem computeCross_not_symmetric :
  forall ds names lo hi n eps z r,
    computeCross ds names names lo hi n lo hi n eps z = Ok r ->
    (2 <= length names)%nat -> 0 < eps ->
    exists z' r',
      computeCross ds names names lo hi n lo hi n eps z' = Ok r' /\
      mget (values r') 0 1 <> mget (values r') 1 0.
Proof.
  intros ds names lo hi n eps z r H Hlen Heps.
  destruct names as [|a names']; [discriminate|].
  unfold computeCross in H. cbv beta iota in H.
  rewrite Nat.eqb_refl in H. cbn [negb] in H.
  destruct (resolve_all ds (a :: names') lo hi n) as [ls|e] eqn:Els;
    [|discriminate].
  cbn [bind] in H.
  match type of H with
  | context [mapM ?f ?l] => destruct (mapM f l) as [sens|e] eqn:Es; [|discriminate]
  end.
  assert (HK : length ls = length (a :: names'))
    by (eapply resolve_all_length; exact Els).
  rewrite <- HK in Hlen.
  pose (z' := fun k : nat => if (k =? 1)%nat then 1 else 0).
  exists z'. eexists. split.
  { unfold computeCross. cbv beta iota. rewrite Nat.eqb_refl. cbn [negb].
    rewrite Els. cbn [bind]. rewrite Es. cbn [bind]. reflexivity. }
  cbn [values]. rewrite !mget_rect.
  destruct (Nat.ltb_spec 0 (length ls)); [|lia].
  destruct (Nat.ltb_spec 1 (length ls)); [|lia].
  cbn [andb].
  replace (0 * length ls + 1)%nat with 1%nat by lia.
  replace (1 * length ls + 0)%nat with (length ls) by lia.
  rewrite (cov_cols_sym n (col ls 1) (col ls 0)).
  unfold draw, z'. rewrite Nat.eqb_refl.
  replace (length ls =? 1)%nat with false by (symmetry; apply Nat.eqb_neq; lia).
  (* the sensitivity and the allocation of cell (0, 1) are positive *)
  apply mapM_Forall2 in Es.
  assert (Hcells : (1 < length (cross_cells (length ls) (length ls)))%nat)
    by (rewrite cross_cells_length; nia).
  pose proof (Forall2_nth _ _ _ 1 (0%nat, 0%nat) 0 Es Hcells) as Hs1.
  rewrite cross_cells_nth1 in Hs1 by lia.
  cbv beta iota in Hs1. apply sensitivity_pos in Hs1.
  unfold allocations. rewrite nth_repeat_lt by exact Hcells.
  set (s1 := nth 1 sens 0) in *.
  set (e1 := eps / Q_of_nat (length (cross_cells (length ls) (length ls)))).
  assert (He1 : 0 < e1) by (apply Qdiv_pos; [exact Heps|];
                            apply Q_of_nat_pos; lia).
  intros Heq.
  assert (Hq : s1 / e1 * 1 == 0).
  { apply (Qplus_inj_l _ _ (cov_cols n (col ls 0) (col ls 1))).
    rewrite Heq. ring. }
  rewrite Qmult_1_r in Hq.
  apply (Qlt_irrefl 0). rewrite <- Hq at 2. apply Qdiv_pos; assumption.
Qed.

End EngineFacts.

Module SessionFacts.
Import Engine Session EngineFacts.
Local Open Scope Q_scope.

(** The accountant's invariant: the cumulative epsilon is the sum of the
    node epsilons, and stays within the cap when one is configured. *)
Definition acct_inv (a : Accountant) : Prop :=
  cumulative_epsilon a == sum_Q (map request_epsilon (acc_nodes a))
  /\ (forall cap, global_cap a = Some cap -> cumulative_epsilon a <= cap).

Lemma sum_Q_app l1 l2 : sum_Q (l1 ++ l2) == sum_Q l1 + sum_Q l2.
Proof.
  induction l1 as [|x l1 IH]; simpl.
  - ring.
  - rewrite IH. ring.
Qed.

Lemma new_accountant_inv cap :
  (forall c, cap = Some c -> 0 <= c) -> acct_inv (new_accountant cap).
Proof.
  intros Hcap. split; [reflexivity|]. intros c Hc. simpl in *. apply Hcap. exact Hc.
Qed.

(** Claim C5: under the invariant, every [addNode] call keeps
    [cumulative_epsilon <= global_cap]; a call whose epsilon would push the
    sum above the cap fails, with [BudgetExceeded] when the request is
    otherwise valid, adds no node and leaves the accountant unchanged; a
    valid request within the cap is appended and the cumulative epsilon
    becomes the sum of all added node epsilons. *)
Theorem addNode_respects_cap :
  forall r a, acct_inv a ->
    let '(res, a') := addNode r a in
    acct_inv a'
    /\ global_cap a' = global_cap a
    /\ (forall e, res = Err e -> a' = a)
    /\ (forall cap, global_cap a = Some cap ->
          cap < cumulative_epsilon a + request_epsilon r ->
          (exists e, res = Err e)
          /\ (validate r = Ok tt -> res = Err BudgetExceeded))
    /\ (validate r = Ok tt ->
          (forall cap, global_cap a = Some cap ->
             cumulative_epsilon a + request_epsilon r <= cap) ->
          res = Ok (length (acc_nodes a))
          /\ acc_nodes a' = acc_nodes a ++ [r]
          /\ cumulative_epsilon a' = cumulative_epsilon a + request_epsilon r
          /\ cumulative_epsilon a' == sum_Q (map request_epsilon (acc_nodes a'))).
Proof.
  intros r a Hinv. pose proof Hinv as [Hsum Hcap]. unfold addNode.
  assert (Hadd : cumulative_epsilon a + request_epsilon r
                 == sum_Q (map request_epsilon (acc_nodes a ++ [r]))).
  { rewrite map_app, sum_Q_app, <- Hsum. simpl. ring. }
  destruct (validate r) as [[]|e] eqn:Ev.
  - destruct (global_cap a) as [cap|] eqn:Ec.
    + destruct (Qle_bool (cumulative_epsilon a + request_epsilon r) cap) eqn:Eb.
      * apply Qle_bool_iff in Eb.
        split; [split|]; simpl.
        { exact Hadd. }
        { intros c Hc. injection Hc as <-. exact Eb. }
        split; [reflexivity|]. split; [intros e He; discriminate|].
        split.
        { intros c Hc Hlt. injection Hc as <-. exfalso.
          apply (Qlt_not_le _ _ Hlt). exact Eb. }
        intros _ _. repeat split. exact Hadd.
      * apply Qle_bool_false in Eb.
        split; [exact Hinv|]. split; [exact Ec|].
        split; [intros; reflexivity|]. split.
        { intros c Hc _. split; [eauto|]. reflexivity. }
        intros _ Hle. exfalso. apply (Qlt_not_le _ _ Eb). apply Hle. reflexivity.
    + split; [split|]; simpl.
      { exact Hadd. }
      { intros c Hc. discriminate. }
      split; [reflexivity|]. split; [intros e He; discriminate|].
      split; [intros c Hc; discriminate|].
      intros _ _. repeat split. exact Hadd.
  - split; [exact Hinv|]. split; [reflexivity|].
    split; [intros; reflexivity|]. split.
    { intros c Hc _. split; [eauto|]. intros H; discriminate. }
    intros H; discriminate.
Qed.

Section MapMi.
Context {A B : Type} (f : nat -> A -> result B).

Lemma mapMi_err k l i a e :
  nth_error l i = Some a -> f (k + i) a = Err e ->
  exists e', mapMi f k l = Err e'.
Proof.
  revert k i. induction l as [|x l IH]; intros k i Hi He.
  - destruct i; discriminate.
  - simpl. destruct i as [|i].
    + injection Hi as ->. rewrite Nat.add_0_r in He. rewrite He. exists e. reflexivity.
    + destruct (f k x) as [b|e0]; cbn [bind]; [|exists e0; reflexivity].
      destruct (IH (S k) i Hi) as [e' He'].
      { rewrite <- He. f_equal. lia. }
      rewrite He'. exists e'. reflexivity.
Qed.

Lemma mapMi_ok k l rs :
  mapMi f k l = Ok rs ->
  length rs = length l
  /\ forall i a, nth_error l i = Some a ->
       exists b, f (k + i) a = Ok b /\ nth_error rs i = Some b.
Proof.
  revert k rs. induction l as [|x l IH]; intros k rs H; simpl in H.
  - injection H as <-. split; [reflexivity|]. intros [|i] a Hi; discriminate.
  - destruct (f k x) as [b|e] eqn:Ef; simpl in H; [|discriminate].
    destruct (mapMi f (S k) l) as [bs|e] eqn:El; simpl in H; [|discriminate].
    injection H as <-. destruct (IH (S k) bs El) as [Hlen Hnth].
    split; [simpl; f_equal; exact Hlen|].
    intros [|i] a Hi; simpl in Hi.
    + injection Hi as <-. exists b. rewrite Nat.add_0_r. split; [exact Ef|reflexivity].
    + destruct (Hnth i a Hi) as [b' [Hb' Hi']]. exists b'.
      split; [|exact Hi']. rewrite <- Hb'. f_equal. lia.
Qed.

Lemma mapMi_all_ok k l :
  (forall i a, nth_error l i = Some a -> exists b, f (k + i) a = Ok b) ->
  exists rs, mapMi f k l = Ok rs.
Proof.
  revert k. induction l as [|x l IH]; intros k Hall; simpl; [exists []; reflexivity|].
  destruct (Hall 0%nat x eq_refl) as [b Hb]. rewrite Nat.add_0_r in Hb.
  rewrite Hb. simpl.
  destruct (IH (S k)) as [bs Hbs].
  { intros i a Hi. destruct (Hall (S i) a Hi) as [b' Hb'].
    exists b'. rewrite <- Hb'. f_equal. lia. }
  rewrite Hbs. exists (b :: bs). reflexivity.
Qed.

End MapMi.

(** Claim C6: [release] on a session in [Building] is all-or-nothing.  If
    it fails, the session is returned unchanged (still [Building], no
    release recorded); if some pending node fails to evaluate, [release]
    fails; if it succeeds, the session moves to [Released], holds exactly
    the returned releases, one per node, each the evaluation of its node;
    and if every node evaluates, [release] succeeds. *)
Theorem release_all_or_nothing :
  forall ds z s,
    state s = Building ->
    let nodes := acc_nodes (accountant s) in
    (forall e s', release ds z s = (Err e, s') ->
       s' = s /\ state s' = Building /\ releases s' = releases s)
    /\ ((exists k r e, nth_error nodes k = Some r /\ eval_node ds z k r = Err e) ->
        exists e, release ds z s = (Err e, s))
    /\ (forall rels s', release ds z s = (Ok rels, s') ->
        state s' = Released /\ releases s' = rels
        /\ accountant s' = accountant s
        /\ length rels = length nodes
        /\ forall k r, nth_error nodes k = Some r ->
             exists rel, eval_node ds z k r = Ok rel /\ nth_error rels k = Some rel)
    /\ ((forall k r, nth_error nodes k = Some r ->
           exists rel, eval_node ds z k r = Ok rel) ->
        exists rels s', release ds z s = (Ok rels, s')).
Proof.
  intros ds z s Hb nodes. unfold release. rewrite Hb.
  split; [|split; [|split]].
  - intros e s' H.
    destruct (mapMi (eval_node ds z) 0 (acc_nodes (accountant s))); [discriminate|].
    injection H as _ <-. auto.
  - intros (k & r & e & Hk & He).
    destruct (mapMi_err (eval_node ds z) 0 nodes k r e Hk He) as [e' He'].
    subst nodes. rewrite He'. eauto.
  - intros rels s' H.
    destruct (mapMi (eval_node ds z) 0 (acc_nodes (accountant s))) as [rs|e]
      eqn:Em; [|discriminate].
    injection H as <- <-. simpl.
    destruct (mapMi_ok (eval_node ds z) 0 _ rs Em) as [Hlen Hnth].
    repeat split; [exact Hlen|]. exact Hnth.
  - intros Hall.
    destruct (mapMi_all_ok (eval_node ds z) 0 nodes Hall) as [rs Hrs].
    subst nodes. rewrite Hrs. eauto.
Qed.

(** Claim C7: after a successful [release], a second [release] fails with
    [DoubleReleaseError] and leaves the session, and so the first call's
    releases, unchanged; [addRequest] then fails with
    [SessionAlreadyReleased], also without any change. *)
Theorem release_twice_rejected :
  forall ds z s rels s1,
    release ds z s = (Ok rels, s1) ->
    releases s1 = rels
    /\ (forall ds' z', release ds' z' s1 = (Err DoubleReleaseError, s1))
    /\ (forall r, addRequest r s1 = (Err SessionAlreadyReleased, s1)).
Proof.
  intros ds z s rels s1 H. unfold release in H.
  destruct (state s); [|discriminate].
  destruct (mapMi (eval_node ds z) 0 (acc_nodes (accountant s))); [|discriminate].
  injection H as <- <-. simpl. split; [reflexivity|].
  split; reflexivity.
Qed.

End SessionFacts.

Module PostFacts.
Import PostProcessing.
Local Open Scope float_scope.

(** *** binary64 facts used by the post-processing claims *)

Lemma Prim2SF_zero : Prim2SF 0 = S754_zero false.
Proof. reflexivity. Qed.

Lemma is_nan_of x : Prim2SF x = S754_nan -> is_nan x = true.
Proof. intros H. unfold is_nan. rewrite eqb_spec, H. reflexivity. Qed.

Lemma sqrt_neg_nan x : (x <? 0) = true -> Prim2SF (PrimFloat.sqrt x) = S754_nan.
Proof.
  rewrite ltb_spec, Prim2SF_zero, sqrt_spec.
  destruct (Prim2SF x) as [[]|[]| |[] m e]; cbn; intros H;
    try discriminate; reflexivity.
Qed.

Lemma mul_nan_l x y : Prim2SF x = S754_nan -> Prim2SF (x * y) = S754_nan.
Proof. intros H. rewrite mul_spec, H. reflexivity. Qed.

Lemma mul_nan_r x y : Prim2SF y = S754_nan -> Prim2SF (x * y) = S754_nan.
Proof.
  intros H. rewrite mul_spec, H. destruct (Prim2SF x); reflexivity.
Qed.

Lemma div_nan_r x y : Prim2SF y = S754_nan -> Prim2SF (x / y) = S754_nan.
Proof.
  intros H. rewrite div_spec, H. destruct (Prim2SF x); reflexivity.
Qed.

(** Rounding is symmetric: the sign only selects the result's sign. *)
Lemma binary_round_aux_negb s m e l :
  binary_round_aux prec emax (negb s) m e l
  = SFopp (binary_round_aux prec emax s m e l).
Proof.
  unfold binary_round_aux.
  destruct (shr_fexp prec emax m e l) as [mrs e'].
  destruct (shr_fexp prec emax _ e' loc_Exact) as [mrs' e''].
  destruct (shr_m mrs') as [|p|p]; try reflexivity.
  destruct (e'' <=? emax - prec)%Z; reflexivity.
Qed.

Lemma SFdiv_opp_r x y :
  SF64div x (SFopp y) = SFopp (SF64div x y).
Proof.
  unfold SF64div.
  destruct x as [sx|sx| |sx mx ex], y as [sy|sy| |sy my ey];
    try (destruct sx, sy; reflexivity); try reflexivity;
    try (destruct sx; reflexivity); try (destruct sy; reflexivity).
  cbn [SFopp SFdiv].
  destruct (SFdiv_core_binary prec emax (Z.pos mx) ex (Z.pos my) ey)
    as [[mz ez] lz].
  replace (xorb sx (negb sy)) with (negb (xorb sx sy))
    by (destruct sx, sy; reflexivity).
  apply binary_round_aux_negb.
Qed.

Lemma nth_zip_with {A B C} (f : A -> B -> C) xs ys k da db dc :
  (k < length xs)%nat -> (k < length ys)%nat ->
  nth k (Engine.zip_with f xs ys) dc = f (nth k xs da) (nth k ys db).
Proof.
  revert ys k. induction xs as [|x xs IH]; intros [|y ys] k Hx Hy;
    simpl in *; try lia.
  destruct k; [reflexivity|]. apply IH; lia.
Qed.

(** A [K x K] matrix. *)
Definition square (K : nat) (m : fmatrix) : Prop :=
  length m = K /\ Forall (fun row => length row = K) m.

Lemma square_row K m i : square K m -> (i < K)%nat -> length (nth i m []) = K.
Proof.
  intros [Hl Hr] Hi. rewrite Forall_forall in Hr. apply Hr.
  apply nth_In. lia.
Qed.

Lemma nth_sqrt_diag K m k :
  square K m -> (k < K)%nat ->
  nth k (map PrimFloat.sqrt (diag m)) 0 = PrimFloat.sqrt (fget m k k).
Proof.
  intros [Hl _] Hk. unfold diag.
  rewrite nth_indep with (d' := PrimFloat.sqrt (fget m 0 0))
    by (rewrite !length_map, length_seq; lia).
  rewrite map_nth.
  rewrite (map_nth (fun k => fget m k k)), seq_nth by lia. reflexivity.
Qed.

Lemma fget_dp_corr K m i j :
  square K m -> (i < K)%nat -> (j < K)%nat ->
  fget (dp_corr m) i j
  = fget m i j / (PrimFloat.sqrt (fget m i i) * PrimFloat.sqrt (fget m j j)).
Proof.
  intros Hsq Hi Hj. pose proof Hsq as [Hl _].
  assert (HD : length (diag m) = K)
    by (unfold diag; rewrite length_map, length_seq; exact Hl).
  unfold fget at 1, dp_corr, ediv, outer.
  set (S := map PrimFloat.sqrt (diag m)).
  assert (HS : length S = K) by (subst S; rewrite length_map; exact HD).
  rewrite (nth_zip_with _ _ _ i [] []) by (rewrite ?length_map; lia).
  rewrite (nth_indep (map (fun x => map (fun y => x * y) S) S) []
             (map (fun y => 0 * y) S)) by (rewrite length_map; lia).
  rewrite (map_nth (fun x => map (fun y => x * y) S) S 0).
  rewrite (nth_zip_with _ _ _ j 0 0)
    by (rewrite ?length_map, ?(square_row K m i Hsq Hi); lia).
  rewrite (nth_indep (map (fun y => nth i S 0 * y) S) 0 (nth i S 0 * 0))
    by (rewrite length_map; lia).
  rewrite (map_nth (fun y => nth i S 0 * y) S 0).
  subst S. rewrite !(nth_sqrt_diag K) by assumption. reflexivity.
Qed.

(** Claim C9: if the released diagonal entry [i] is negative, its square
    root is NaN and every entry of row [i] and of column [i] of [dp_corr]
    is NaN; [dp_corr] is total, so nothing signals it. *)
Theorem dp_corr_nan_row_col :
  forall K m i,
    square K m -> (i < K)%nat -> (fget m i i <? 0) = true ->
    Prim2SF (PrimFloat.sqrt (fget m i i)) = S754_nan
    /\ forall j, (j < K)%nat ->
         is_nan (fget (dp_corr m) i j) = true
         /\ is_nan (fget (dp_corr m) j i) = true.
Proof.
  intros K m i Hsq Hi Hneg.
  pose proof (sqrt_neg_nan _ Hneg) as Hs.
  split; [exact Hs|]. intros j Hj. split.
  - rewrite (fget_dp_corr K) by assumption.
    apply is_nan_of, div_nan_r, mul_nan_l, Hs.
  - rewrite (fget_dp_corr K) by assumption.
    apply is_nan_of, div_nan_r, mul_nan_r, Hs.
Qed.

(** Claim C10: [beta_hat_dp] divides [dp_cov[2,3]] by [dp_cov[2,2]]
    whatever the divisor: a zero variance gives an infinite or NaN
    coefficient, and a negative variance gives the opposite of the ratio
    to the variance's magnitude. *)
Theorem beta_hat_dp_unguarded :
  forall m c v,
    at2 m 2 3 = Some c -> at2 m 2 2 = Some v ->
    beta_hat_dp m = Some (c / v)
    /\ ((v =? 0) = true -> (is_infinity (c / v) || is_nan (c / v)) = true)
    /\ ((v <? 0) = true -> c / v = - (c / PrimFloat.abs v)).
Proof.
  intros m c v Hc Hv. unfold beta_hat_dp. rewrite Hc, Hv.
  split; [reflexivity|]. split.
  - rewrite eqb_spec, Prim2SF_zero. intros Hz.
    unfold is_infinity, is_nan.
    rewrite !eqb_spec, abs_spec, div_spec.
    change (Prim2SF infinity) with (S754_infinity false).
    destruct (Prim2SF v) as [sv|sv| |sv mv ev]; cbn in Hz;
      try (destruct sv; discriminate); try discriminate;
      destruct (Prim2SF c) as [sc|sc| |sc mc ec]; reflexivity.
  - rewrite ltb_spec, Prim2SF_zero. intros Hn.
    apply Prim2SF_inj. rewrite opp_spec, !div_spec, abs_spec.
    assert (Habs : SFabs (Prim2SF v) = SFopp (Prim2SF v)).
    { destruct (Prim2SF v) as [[]|[]| |[] mv ev]; try discriminate; reflexivity. }
    rewrite Habs, SFdiv_opp_r.
    destruct (SF64div (Prim2SF c) (Prim2SF v)) as [[]|[]| |[] mz ez]; reflexivity.
Qed.

(** Claim C8: the post-processing cells are a pure function of the
    released matrix: they leave the notebook state (session, accountant,
    raw data) as it was, so no budget is spent; their outputs agree on any
    two states holding the same [dp_cov], whatever the raw data and
    sessions; and running them again yields identical values. *)
Theorem post_process_pure :
  forall nb1 nb2,
    nb_dp_cov nb1 = nb_dp_cov nb2 ->
    fst (post_process nb1) = nb1
    /\ Session.totalSpent (Session.accountant (nb_session (fst (post_process nb1))))
       = Session.totalSpent (Session.accountant (nb_session nb1))
    /\ snd (post_process nb1) = snd (post_process nb2)
    /\ snd (post_process (fst (post_process nb1))) = snd (post_process nb1)
    /\ snd (post_process nb1)
       = (dp_corr (nb_dp_cov nb1), beta_hat_dp (nb_dp_cov nb1)).
Proof.
  intros nb1 nb2 Heq. unfold post_process. cbn [fst snd].
  rewrite Heq. repeat split.
Qed.

End PostFacts.

(** ** Further properties of the notebook's code *)

Module NotebookFacts.
Import Engine.
Local Open Scope Q_scope.

(** The first analysis cell computes the covariance of [age] and [income]
    three ways (scalar, matrix, cross-covariance) to show that the methods
    agree.  Without noise they do: the scalar value, both off-diagonal
    entries of the [2 x 2] matrix and both off-diagonal entries of the
    cross-covariance of [[age, income]] with itself are the same
    covariance of the two clamped columns. *)
Theorem three_methods_agree :
  forall ds a b la ua lb ub n eps rs rm rc,
    computeScalar ds a b la ua n lb ub n eps (fun _ => 0) = Ok rs ->
    computeMatrix ds [a; b] [la; lb] [ua; ub] n eps (fun _ => 0) = Ok rm ->
    computeCross ds [a; b] [a; b] [la; lb] [ua; ub] n [la; lb] [ua; ub] n eps
      (fun _ => 0) = Ok rc ->
    exists ca cb,
      resolve ds a la ua n = Ok ca /\ resolve ds b lb ub n = Ok cb
      /\ mget (values rs) 0 0 == cov_cols n ca cb
      /\ mget (values rm) 0 1 == cov_cols n ca cb
      /\ mget (values rm) 1 0 == cov_cols n ca cb
      /\ mget (values rc) 0 1 == cov_cols n ca cb
      /\ mget (values rc) 1 0 == cov_cols n ca cb.
Proof.
  intros ds a b la ua lb ub n eps rs rm rc Hs Hm Hc.
  unfold computeScalar in Hs.
  destruct (resolve ds a la ua n) as [ca|] eqn:Ea; cbn [bind] in Hs; [|discriminate].
  destruct (resolve ds b lb ub n) as [cb|] eqn:Eb; cbn [bind] in Hs; [|discriminate].
  rewrite Nat.eqb_refl in Hs. cbn [negb] in Hs.
  destruct (cell_sensitivity n ca cb) as [d|]; cbn [bind] in Hs; [|discriminate].
  injection Hs as <-.
  unfold computeMatrix in Hm. cbn [resolve_all] in Hm.
  rewrite Ea, Eb in Hm. cbn [bind] in Hm.
  destruct (mapM _ _) as [sm|] in Hm; cbn [bind] in Hm; [|discriminate].
  injection Hm as <-.
  unfold computeCross in Hc. rewrite Nat.eqb_refl in Hc. cbn [negb resolve_all] in Hc.
  rewrite Ea, Eb in Hc. cbn [bind] in Hc.
  destruct (mapM _ _) as [sc|] in Hc; cbn [bind] in Hc; [|discriminate].
  injection Hc as <-.
  exists ca, cb. split; [reflexivity|]. split; [reflexivity|].
  cbn [values]. unfold mget, draw. cbn [nth col].
  rewrite (EngineFacts.cov_cols_sym n cb ca).
  repeat split; ring.
Qed.

End NotebookFacts.

Module CorrFacts.
Import PostProcessing Plotting PostFacts.
Local Open Scope float_scope.

(** *** binary64 facts *)

Lemma SF64mul_comm x y : SF64mul x y = SF64mul y x.
Proof.
  destruct x as [sx|sx| |sx mx ex], y as [sy|sy| |sy my ey];
    try reflexivity; try (destruct sx, sy; reflexivity);
    try (destruct sx; reflexivity); try (destruct sy; reflexivity).
  unfold SF64mul, SFmul.
  rewrite xorb_comm, Pos.mul_comm, Z.add_comm. reflexivity.
Qed.

Lemma float_mul_comm (x y : float) : x * y = y * x.
Proof. apply Prim2SF_inj. rewrite !mul_spec. apply SF64mul_comm. Qed.

Lemma zero_of_eqb x : (x =? 0) = true -> exists s, Prim2SF x = S754_zero s.
Proof.
  rewrite eqb_spec, Prim2SF_zero.
  destruct (Prim2SF x) as [s|s| |s m e]; cbn; intros H;
    try (destruct s; discriminate); try discriminate; eauto.
Qed.

Lemma sqrt_zero x s : Prim2SF x = S754_zero s -> Prim2SF (PrimFloat.sqrt x) = S754_zero s.
Proof. intros H. rewrite sqrt_spec, H. reflexivity. Qed.

(** A product with a signed zero factor is a signed zero or NaN. *)
Definition zero_or_nan (f : spec_float) : Prop :=
  (exists s, f = S754_zero s) \/ f = S754_nan.

Lemma mul_zero_l x y s :
  Prim2SF x = S754_zero s -> zero_or_nan (Prim2SF (x * y)).
Proof.
  intros H. unfold zero_or_nan. rewrite mul_spec, H.
  destruct (Prim2SF y) as [t|t| |t m e]; cbn; eauto.
Qed.

Lemma mul_zero_r x y s :
  Prim2SF y = S754_zero s -> zero_or_nan (Prim2SF (x * y)).
Proof.
  intros H. unfold zero_or_nan. rewrite mul_spec, H.
  destruct (Prim2SF x) as [t|t| |t m e]; cbn; eauto.
Qed.

(** Dividing by a signed zero or by NaN gives an infinity or NaN. *)
Lemma div_zero_or_nan x y :
  zero_or_nan (Prim2SF y) -> (is_infinity (x / y) || is_nan (x / y)) = true.
Proof.
  intros Hy. unfold is_infinity, is_nan.
  rewrite !eqb_spec, abs_spec, div_spec.
  change (Prim2SF infinity) with (S754_infinity false).
  destruct Hy as [[s Hs]|Hs]; rewrite Hs;
    destruct (Prim2SF x) as [t|t| |t m e]; try reflexivity; destruct s, t; reflexivity.
Qed.

(** *** shape of [dp_corr] *)

Lemma length_zip_with {A B C} (f : A -> B -> C) xs ys :
  length (Engine.zip_with f xs ys) = Nat.min (length xs) (length ys).
Proof.
  revert ys. induction xs as [|x xs IH]; intros [|y ys]; simpl; auto.
Qed.

Lemma zip_with_rows {A B C} (f : A -> B -> C) K m o :
  Forall (fun row => length row = K) m -> Forall (fun row => length row = K) o ->
  Forall (fun row => length row = K) (Engine.zip_with (Engine.zip_with f) m o).
Proof.
  revert o. induction m as [|r m IH]; intros [|r' o] Hm Ho; simpl; auto.
  inversion Hm; subst. inversion Ho; subst.
  constructor; [|auto]. rewrite length_zip_with. lia.
Qed.

Lemma dp_corr_square K m : square K m -> square K (dp_corr m).
Proof.
  intros [Hl Hr].
  assert (HS : length (map PrimFloat.sqrt (diag m)) = K)
    by (unfold diag; rewrite !length_map, length_seq; exact Hl).
  unfold dp_corr, ediv, outer. split.
  - rewrite length_zip_with, length_map. lia.
  - apply zip_with_rows; [exact Hr|].
    apply Forall_forall. intros row Hin. apply in_map_iff in Hin.
    destruct Hin as (x & <- & _). rewrite length_map. exact HS.
Qed.

Lemma dp_corr_sym K m i j :
  square K m -> (i < K)%nat -> (j < K)%nat -> fget m j i = fget m i j ->
  fget (dp_corr m) j i = fget (dp_corr m) i j.
Proof.
  intros Hsq Hi Hj Hm.
  rewrite !(fget_dp_corr K) by assumption.
  rewrite Hm, float_mul_comm. reflexivity.
Qed.

(** *** indexing *)

Lemma nth_map_enum {A B} (f : nat * A -> B) l i d dl :
  (i < length l)%nat ->
  nth i (map f (combine (seq 0 (length l)) l)) d = f (i, nth i l dl).
Proof.
  intros Hi.
  rewrite nth_indep with (d' := f (0%nat, dl))
    by (rewrite length_map, length_combine, length_seq; lia).
  rewrite map_nth, combine_nth by apply length_seq.
  rewrite seq_nth by lia. reflexivity.
Qed.

Lemma bget_mask K a i j :
  square K a -> (i < K)%nat -> (j < K)%nat -> bget (mask a) i j = (i <=? j)%nat.
Proof.
  intros Hsq Hi Hj. pose proof (square_row K a i Hsq Hi) as Hrow.
  destruct Hsq as [Hl _].
  unfold bget, mask, triu.
  rewrite (nth_map_enum _ _ i [] []) by (unfold ones_like; rewrite length_map; lia).
  assert (Ho : nth i (ones_like a) [] = map (fun _ => true) (nth i a []))
    by (unfold ones_like; apply (map_nth (fun row => map (fun _ => true) row) a [] i)).
  rewrite Ho.
  rewrite (nth_map_enum _ _ j false false) by (rewrite length_map; lia).
  rewrite nth_indep with (d' := true) by (rewrite length_map; lia).
  rewrite (map_nth (fun _ : float => true) (nth i a []) 0 j).
  destruct (i <=? j)%nat; reflexivity.
Qed.

(** *** properties *)

(** [dp_corr] of a [K x K] matrix is a [K x K] matrix whose entry [(i, j)]
    is [dp_cov[i, j] / (sqrt(dp_cov[i, i]) * sqrt(dp_cov[j, j]))]: the
    broadcast division pairs every entry with its own row's and column's
    standard deviation. *)
Theorem dp_corr_entries :
  forall K m, square K m ->
    square K (dp_corr m)
    /\ forall i j, (i < K)%nat -> (j < K)%nat ->
         fget (dp_corr m) i j
         = fget m i j / (PrimFloat.sqrt (fget m i i) * PrimFloat.sqrt (fget m j j)).
Proof.
  intros K m Hsq. split; [apply dp_corr_square, Hsq|].
  intros i j Hi Hj. apply (fget_dp_corr K); assumption.
Qed.

(** [dp_corr] preserves symmetry: a symmetric released matrix gives a
    symmetric correlation matrix, bit for bit (binary64 multiplication is
    commutative, NaNs included). *)
Theorem dp_corr_symmetric :
  forall K m, square K m ->
    (forall i j, (i < K)%nat -> (j < K)%nat -> fget m i j = fget m j i) ->
    forall i j, (i < K)%nat -> (j < K)%nat ->
      fget (dp_corr m) i j = fget (dp_corr m) j i.
Proof.
  intros K m Hsq Hsym i j Hi Hj. symmetry.
  apply (dp_corr_sym K); auto.
Qed.

(** A released variance of exactly zero (either sign) makes every entry of
    its row and of its column of [dp_corr] infinite or NaN: the divisor
    [sqrt(0) * sqrt(v)] is a signed zero or NaN, whatever the other
    variance [v]; on the diagonal it is [0 / 0], NaN. *)
Theorem dp_corr_zero_variance :
  forall K m i, square K m -> (i < K)%nat -> (fget m i i =? 0) = true ->
    is_nan (fget (dp_corr m) i i) = true
    /\ forall j, (j < K)%nat ->
         (is_infinity (fget (dp_corr m) i j) || is_nan (fget (dp_corr m) i j)) = true
         /\ (is_infinity (fget (dp_corr m) j i) || is_nan (fget (dp_corr m) j i)) = true.
Proof.
  intros K m i Hsq Hi Hz.
  destruct (zero_of_eqb _ Hz) as [s Hs].
  pose proof (sqrt_zero _ _ Hs) as Hq.
  split.
  - rewrite (fget_dp_corr K) by assumption.
    unfold is_nan. rewrite eqb_spec, div_spec, mul_spec, Hq, Hs.
    destruct s; reflexivity.
  - intros j Hj. rewrite !(fget_dp_corr K) by assumption. split.
    + apply div_zero_or_nan. eapply mul_zero_l; exact Hq.
    + apply div_zero_or_nan. eapply mul_zero_r; exact Hq.
Qed.

(** [dp_cov[2,3] / dp_cov[2,2]] raises [IndexError] exactly when the matrix
    has at most two rows or its row 2 has at most three entries. *)
Theorem beta_hat_dp_index_error :
  forall m, beta_hat_dp m = None
            <-> (length m <= 2 \/ length (nth 2 m []) <= 3)%nat.
Proof.
  intros m. unfold beta_hat_dp, at2.
  destruct (nth_error m 2) as [row|] eqn:E.
  - pose proof E as E'. apply nth_error_nth with (d := []) in E'. rewrite E'.
    assert (Hm : (2 < length m)%nat)
      by (apply nth_error_Some; rewrite E; discriminate).
    destruct (nth_error row 3) as [c|] eqn:E3.
    + assert (Hr : (3 < length row)%nat)
        by (apply nth_error_Some; rewrite E3; discriminate).
      destruct (nth_error row 2) as [v|] eqn:E2.
      * split; [discriminate|]. intros [H|H]; lia.
      * apply nth_error_None in E2. lia.
    + apply nth_error_None in E3. split; [intros _; right; exact E3|].
      intros _. reflexivity.
  - apply nth_error_None in E.
    split; [intros _; left; exact E|]. intros _. reflexivity.
Qed.

(** The heatmap cell: the mask built from [non_dp_corr] hides the diagonal
    and the upper triangle and shows the strict lower triangle; each hidden
    off-diagonal cell of the [dp_corr] heatmap has its mirror cell shown,
    holding the same value when the released matrix is symmetric. *)
Theorem heatmap_mask_mirrors :
  forall K nc m, square K nc -> square K m ->
    (forall i j, (i < K)%nat -> (j < K)%nat -> fget m i j = fget m j i) ->
    forall i j, (i < K)%nat -> (j < K)%nat ->
      bget (mask (dp_corr nc)) i j = (i <=? j)%nat
      /\ (bget (mask (dp_corr nc)) i j = true -> i <> j ->
          bget (mask (dp_corr nc)) j i = false
          /\ fget (dp_corr m) j i = fget (dp_corr m) i j).
Proof.
  intros K nc m Hnc Hm Hsym i j Hi Hj.
  pose proof (dp_corr_square K nc Hnc) as Hc.
  rewrite !(bget_mask K) by assumption.
  split; [reflexivity|]. intros Hij Hne.
  apply Nat.leb_le in Hij. split.
  - apply Nat.leb_gt. lia.
  - apply (dp_corr_sym K); auto.
Qed.

End CorrFacts.

(** ** Witnesses: each theorem applied at a concrete input *)

Module Witnesses.
Import Engine Session PostProcessing Demo EngineFacts SessionFacts PostFacts.

Lemma sensitivity_contract_witness :
  sensitivity 0 100 0 500000 1000
  = Ok ((100 - 0) * (500000 - 0) / (Q_of_nat 1000 - 1))%Q.
Proof.
  refine (proj1 (proj1 (sensitivity_contract 0 100 0 500000 1000) _ _ _));
    [vm_compute; reflexivity | vm_compute; reflexivity | lia].
Defined.

Lemma computeMatrix_symmetric_witness :
  exists r,
    computeMatrix demo_ds demo_names demo_lower demo_upper 4 2 demo_z = Ok r
    /\ mget (values r) 0 1 = mget (values r) 1 0.
Proof.
  eexists. split; [reflexivity|].
  eapply (computeMatrix_symmetric demo_ds demo_names demo_lower demo_upper 4 2 demo_z).
  reflexivity.
Defined.

Lemma release_budget_split_witness :
  exists r,
    computeMatrix demo_ds demo_names demo_lower demo_upper 4 2 demo_z = Ok r
    /\ (epsilon_spent r == 2)%Q.
Proof.
  eexists. split; [reflexivity|].
  match goal with
  | |- (epsilon_spent ?r == _)%Q =>
      destruct (proj1 release_budget_split demo_ds demo_names demo_lower
                  demo_upper 4%nat 2%Q demo_z r eq_refl) as (_ & _ & _ & Hs);
      exact Hs
  end.
Defined.

Lemma computeCross_not_symmetric_witness :
  exists r,
    computeCross demo_ds demo_names demo_names demo_lower demo_upper 4
      demo_lower demo_upper 4 2 demo_z = Ok r
    /\ exists z' r',
         computeCross demo_ds demo_names demo_names demo_lower demo_upper 4
           demo_lower demo_upper 4 2 z' = Ok r'
         /\ mget (values r') 0 1 <> mget (values r') 1 0.
Proof.
  eexists. split; [reflexivity|].
  eapply (computeCross_not_symmetric demo_ds demo_names demo_lower demo_upper 4 2 demo_z);
    [reflexivity | simpl; lia | vm_compute; reflexivity].
Defined.

Lemma addNode_respects_cap_witness :
  acct_inv (new_accountant (Some 1%Q))
  /\ fst (addNode demo_matrix_req (new_accountant (Some 1%Q))) = Err BudgetExceeded
  /\ snd (addNode demo_matrix_req (new_accountant (Some 1%Q)))
     = new_accountant (Some 1%Q).
Proof.
  assert (Hinv : acct_inv (new_accountant (Some 1%Q))).
  { apply new_accountant_inv. intros c Hc. injection Hc as <-.
    vm_compute. discriminate. }
  pose proof (addNode_respects_cap demo_matrix_req _ Hinv) as Hc.
  destruct (addNode demo_matrix_req (new_accountant (Some 1%Q))) as [res a'] eqn:E.
  destruct Hc as (_ & _ & Hrej & Hover & _).
  destruct (Hover 1%Q eq_refl) as [[e He] Hbe]; [vm_compute; reflexivity|].
  split; [exact Hinv|]. simpl.
  split; [apply Hbe; vm_compute; reflexivity|].
  exact (Hrej e He).
Defined.

Lemma release_all_or_nothing_witness :
  state demo_failing_session = Building
  /\ exists e,
       release demo_ds demo_zs demo_failing_session = (Err e, demo_failing_session).
Proof.
  assert (Hb : state demo_failing_session = Building) by reflexivity.
  split; [exact Hb|].
  destruct (release_all_or_nothing demo_ds demo_zs demo_failing_session Hb)
    as (_ & Hfail & _).
  apply Hfail. exists 1%nat, demo_missing_req, ConfigurationError.
  split; reflexivity.
Defined.

Lemma release_twice_rejected_witness :
  release demo_ds demo_zs demo_ok_session
  = (Ok demo_first_rels, snd demo_first_release)
  /\ release demo_ds demo_zs (snd demo_first_release)
     = (Err DoubleReleaseError, snd demo_first_release)
  /\ releases (snd demo_first_release) = demo_first_rels.
Proof.
  assert (H : release demo_ds demo_zs demo_ok_session
              = (Ok demo_first_rels, snd demo_first_release))
    by (vm_compute; reflexivity).
  destruct (release_twice_rejected _ _ _ _ _ H) as (Hrel & Htwice & _).
  split; [exact H|]. split; [apply Htwice|exact Hrel].
Defined.

Lemma post_process_pure_witness :
  nb_data demo_nb1 <> nb_data demo_nb2
  /\ snd (post_process demo_nb1) = snd (post_process demo_nb2).
Proof.
  split; [discriminate|].
  apply (post_process_pure demo_nb1 demo_nb2). reflexivity.
Defined.

Lemma dp_corr_nan_row_col_witness :
  is_nan (fget (dp_corr demo_cov) 2 0) = true
  /\ is_nan (fget (dp_corr demo_cov) 3 2) = true.
Proof.
  assert (Hsq : square 4 demo_cov) by (split; [reflexivity|repeat constructor]).
  destruct (dp_corr_nan_row_col 4 demo_cov 2 Hsq ltac:(lia) ltac:(vm_compute; reflexivity))
    as [_ Hrc].
  split; [apply (Hrc 0%nat); lia|apply (Hrc 3%nat); lia].
Defined.

Lemma beta_hat_dp_unguarded_witness :
  beta_hat_dp demo_cov = Some (7 / -1)%float
  /\ (7 / -1 = - (7 / PrimFloat.abs (-1)))%float.
Proof.
  destruct (beta_hat_dp_unguarded demo_cov 7 (-1) eq_refl eq_refl)
    as (Hb & _ & Hneg).
  split; [exact Hb|]. apply Hneg. vm_compute. reflexivity.
Defined.

End Witnesses.

(** ** Witnesses of the further properties *)

Module NotebookWitnesses.
Import Engine PostProcessing Plotting Demo DemoFloat PostFacts NotebookFacts CorrFacts.

Lemma demo_cov_square : square 4 demo_cov.
Proof. split; [reflexivity | repeat constructor]. Qed.

Lemma demo_cov_sym :
  forall i j, (i < 4)%nat -> (j < 4)%nat -> fget demo_cov i j = fget demo_cov j i.
Proof.
  intros i j Hi Hj.
  destruct i as [|[|[|[|i]]]]; try lia; destruct j as [|[|[|[|j]]]]; try lia;
    reflexivity.
Qed.

Lemma three_methods_agree_witness :
  exists rs rm rc,
    computeScalar demo_ds "age" "income" 0 100 4 0 10 4 2 (fun _ => 0) = Ok rs
    /\ computeMatrix demo_ds demo_names demo_lower demo_upper 4 2 (fun _ => 0) = Ok rm
    /\ computeCross demo_ds demo_names demo_names demo_lower demo_upper 4
         demo_lower demo_upper 4 2 (fun _ => 0) = Ok rc
    /\ (mget (values rs) 0 0 == mget (values rm) 0 1)%Q
    /\ (mget (values rm) 1 0 == mget (values rc) 1 0)%Q.
Proof.
  do 3 eexists. split; [reflexivity|]. split; [reflexivity|]. split; [reflexivity|].
  destruct (three_methods_agree demo_ds "age" "income" 0%Q 100%Q 0%Q 10%Q 4%nat 2%Q
              _ _ _ eq_refl eq_refl eq_refl)
    as (ca & cb & _ & _ & H1 & H2 & H3 & _ & H5).
  split.
  - rewrite H1, H2. reflexivity.
  - rewrite H3, H5. reflexivity.
Defined.

Lemma dp_corr_entries_witness :
  square 4 (dp_corr demo_cov)
  /\ fget (dp_corr demo_cov) 0 1
     = (1 / (PrimFloat.sqrt 4 * PrimFloat.sqrt 9))%float.
Proof.
  destruct (dp_corr_entries 4 demo_cov demo_cov_square) as [Hs He].
  split; [exact Hs|].
  rewrite (He 0%nat 1%nat) by lia. reflexivity.
Defined.

Lemma dp_corr_symmetric_witness :
  fget (dp_corr demo_cov) 1 2 = fget (dp_corr demo_cov) 2 1.
Proof.
  apply (dp_corr_symmetric 4 demo_cov demo_cov_square demo_cov_sym); lia.
Defined.

Lemma dp_corr_zero_variance_witness :
  is_nan (fget (dp_corr demo_zero_var) 0 0) = true
  /\ (is_infinity (fget (dp_corr demo_zero_var) 0 1)
      || is_nan (fget (dp_corr demo_zero_var) 0 1)) = true.
Proof.
  assert (Hsq : square 2 demo_zero_var)
    by (split; [reflexivity | repeat constructor]).
  destruct (dp_corr_zero_variance 2 demo_zero_var 0 Hsq) as [H0 Hj];
    [lia | vm_compute; reflexivity |].
  split; [exact H0|]. apply (Hj 1%nat). lia.
Defined.

Lemma heatmap_mask_mirrors_witness :
  bget (mask (dp_corr demo_cov)) 1 2 = true
  /\ bget (mask (dp_corr demo_cov)) 2 1 = false
  /\ fget (dp_corr demo_cov) 2 1 = fget (dp_corr demo_cov) 1 2.
Proof.
  destruct (heatmap_mask_mirrors 4 demo_cov demo_cov demo_cov_square
              demo_cov_square demo_cov_sym 1 2) as [Hm Hmir]; try lia.
  assert (Ht : bget (mask (dp_corr demo_cov)) 1 2 = true) by (rewrite Hm; reflexivity).
  destruct (Hmir Ht) as [Hf Heq]; [lia|].
  split; [exact Ht|]. split; [exact Hf | exact Heq].
Defined.

End NotebookWitnesses.
